(** * Genode packet-stream transport (os/packet_stream.h)

    A shallow embedding of the shared-memory packet-stream interface:
    the packet-descriptor ring buffer, the transmitter with its data-flow
    control, the layout computation of [Packet_stream_base], the packet
    validation, and the packet allocation of [Packet_stream_source].

    Machine integers are represented as [Z] with the wrap-around of the
    C++ types written out: [unsigned] is 32 bits wide, [Genode::size_t] and
    [Genode::addr_t] are unsigned machine words, [Genode::off_t] is a signed
    machine word. *)

From stdpp Require Import base list numbers.
From Stdlib Require Import ZArith Lia.

Local Open Scope Z_scope.

(** ** Machine integers *)

Module Machine.

(** Genode runs on 32-bit and on 64-bit platforms. *)
Inductive Arch := Arch32 | Arch64.

Definition word_bits (a : Arch) : Z :=
  match a with Arch32 => 32 | Arch64 => 64 end.

(** Value of an unsigned integer of [w] bits. *)
Definition wrap (w x : Z) : Z := x mod 2 ^ w.

(** Value of a signed (two's complement) integer of [w] bits. *)
Definition swrap (w x : Z) : Z := (x + 2 ^ (w - 1)) mod 2 ^ w - 2 ^ (w - 1).

(** The C++ type [unsigned]. *)
Definition u32 (x : Z) : Z := wrap 32 x.

Definition is_unsigned (w x : Z) : Prop := 0 <= x < 2 ^ w.
Definition is_signed (w x : Z) : Prop := - 2 ^ (w - 1) <= x < 2 ^ (w - 1).

End Machine.

Import Machine.

(** ** Packet descriptors *)

(** [Genode::Packet_descriptor]: an [off_t] offset and a [size_t] size. *)
Record Packet_descriptor := mk_packet { offset : Z; size : Z }.

(** The default constructor, also the result of clearing the queue
    storage with [memset]. *)
Definition default_packet : Packet_descriptor := mk_packet 0 0.

#[global] Instance Packet_descriptor_inhabited : Inhabited Packet_descriptor :=
  populate default_packet.

#[global] Instance Packet_descriptor_eq_dec : EqDecision Packet_descriptor.
Proof. solve_decision. Defined.

(** ** The packet-descriptor queue *)

(** The anonymous struct of [Packet_descriptor_queue]: two [unsigned]
    indices and an array of [QUEUE_SIZE] descriptors. *)
Record Queue := mk_queue {
  _head : Z;
  _tail : Z;
  _queue : list Packet_descriptor
}.

Inductive Role := PRODUCER | CONSUMER.

Section Packet_descriptor_queue.

(** The template argument [int QUEUE_SIZE]. *)
Variable QUEUE_SIZE : Z.

(** Array subscript [_queue[i]]. *)
Definition slot (i : Z) : nat := Z.to_nat i.

(** The constructor runs on a shared-memory block [mem] and initialises
    the members driven by the given role only. *)
Definition Packet_descriptor_queue (role : Role) (mem : Queue) : Queue :=
  match role with
  | PRODUCER =>
      {| _head := 0; _tail := _tail mem;
         _queue := replicate (length (_queue mem)) default_packet |}
  | CONSUMER =>
      {| _head := _head mem; _tail := 0; _queue := _queue mem |}
  end.

Definition empty (q : Queue) : bool := _tail q =? _head q.

Definition full (q : Queue) : bool :=
  u32 (_head q + 1) mod QUEUE_SIZE =? _tail q.

Definition single_element (q : Queue) : bool :=
  u32 (_tail q + 1) mod QUEUE_SIZE =? _head q.

Definition single_slot_free (q : Queue) : bool :=
  u32 (_head q + 2) mod QUEUE_SIZE =? _tail q.

Definition slots_free (q : Queue) : Z :=
  u32 ((if _tail q >? _head q
        then u32 (_tail q - _head q)
        else u32 (u32 (QUEUE_SIZE - _head q) + _tail q)) - 1).

Definition add (q : Queue) (packet : Packet_descriptor) : bool * Queue :=
  if full q then (false, q)
  else (true,
        {| _head := u32 (_head q + 1) mod QUEUE_SIZE;
           _tail := _tail q;
           _queue := <[slot (_head q mod QUEUE_SIZE) := packet]> (_queue q) |}).

Definition get (q : Queue) : Packet_descriptor * Queue :=
  (_queue q !!! slot (_tail q mod QUEUE_SIZE),
   {| _head := _head q;
      _tail := u32 (_tail q + 1) mod QUEUE_SIZE;
      _queue := _queue q |}).

Definition peek (q : Queue) : Packet_descriptor :=
  _queue q !!! slot (_tail q mod QUEUE_SIZE).

End Packet_descriptor_queue.

(** ** Well-formed and reachable queue states *)

Section Queue_states.

Variable QUEUE_SIZE : Z.

(** [QUEUE_SIZE] is an [int] and the bound of an array. *)
Definition valid_queue_size : Prop := 0 < QUEUE_SIZE < 2 ^ 31.

(** A shared-memory block that holds the storage of one queue. *)
Definition queue_block (mem : Queue) : Prop :=
  length (_queue mem) = Z.to_nat QUEUE_SIZE.

(** The queue after the source and the sink have both constructed
    their view of it. *)
Definition constructed (mem : Queue) : Queue :=
  Packet_descriptor_queue CONSUMER (Packet_descriptor_queue PRODUCER mem).

(** States reached from a constructed queue by any calls of [add] and
    [get]. *)
Inductive reachable : Queue -> Prop :=
| reachable_constructed mem :
    queue_block mem -> reachable (constructed mem)
| reachable_add q packet :
    reachable q -> reachable (add QUEUE_SIZE q packet).2
| reachable_get q :
    reachable q -> reachable (get QUEUE_SIZE q).2.

Definition wf (q : Queue) : Prop :=
  0 <= _head q < QUEUE_SIZE /\ 0 <= _tail q < QUEUE_SIZE /\
  length (_queue q) = Z.to_nat QUEUE_SIZE.

(** Number of descriptors held: the distance from [_tail] to [_head]. *)
Definition count (q : Queue) : Z := (_head q - _tail q) mod QUEUE_SIZE.

(** The descriptors held, oldest first. *)
Definition contents (q : Queue) : list Packet_descriptor :=
  map (fun i : nat => _queue q !!! slot ((_tail q + Z.of_nat i) mod QUEUE_SIZE))
      (seq 0 (Z.to_nat (count q))).

End Queue_states.

(** ** Sequences of queue operations *)

Inductive Op := Op_add (packet : Packet_descriptor) | Op_get.

Section Queue_programs.

Variable QUEUE_SIZE : Z.

(** The caller consults [full] before each [add] and [empty] before
    each [get], and performs the operation only if the check allows it. *)
Fixpoint respects_checks (q : Queue) (ops : list Op) : bool :=
  match ops with
  | [] => true
  | Op_add packet :: ops' =>
      negb (full QUEUE_SIZE q) && respects_checks (add QUEUE_SIZE q packet).2 ops'
  | Op_get :: ops' =>
      negb (empty q) && respects_checks (get QUEUE_SIZE q).2 ops'
  end.

(** Runs the operations; returns the descriptors returned by the calls
    of [get], in the order of the calls, and the final state. *)
Fixpoint run (q : Queue) (ops : list Op) : list Packet_descriptor * Queue :=
  match ops with
  | [] => ([], q)
  | Op_add packet :: ops' => run (add QUEUE_SIZE q packet).2 ops'
  | Op_get :: ops' =>
      let '(packet, q') := get QUEUE_SIZE q in
      let '(out, q'') := run q' ops' in
      (packet :: out, q'')
  end.

(** The descriptors passed to [add], in the order of the calls. *)
Fixpoint added (ops : list Op) : list Packet_descriptor :=
  match ops with
  | [] => []
  | Op_add packet :: ops' => packet :: added ops'
  | Op_get :: ops' => added ops'
  end.

(** Calls [get] until [empty] holds, at most [fuel] times. *)
Fixpoint drain (fuel : nat) (q : Queue) : list Packet_descriptor :=
  match fuel with
  | O => []
  | S fuel' =>
      if empty q then []
      else let '(packet, q') := get QUEUE_SIZE q in packet :: drain fuel' q'
  end.

(** Adds the descriptors one after the other; returns the result of
    each call and the final state. *)
Fixpoint add_all (q : Queue) (packets : list Packet_descriptor)
  : list bool * Queue :=
  match packets with
  | [] => ([], q)
  | packet :: packets' =>
      let '(ok, q') := add QUEUE_SIZE q packet in
      let '(oks, q'') := add_all q' packets' in
      (ok :: oks, q'')
  end.

End Queue_programs.

(** ** The transmitter with data-flow control *)

(** [Packet_descriptor_transmitter]: the queue it writes to, the flag of
    a deferred wakeup, and the signal transmitter [_rx_ready], of which
    the number of submitted signals is recorded. *)
Record Transmitter := mk_transmitter {
  _tx_queue : Queue;
  _tx_wakeup_needed : bool;
  _rx_ready : nat
}.

Section Packet_descriptor_transmitter.

Variable QUEUE_SIZE : Z.

(** [_rx_ready.submit()] *)
Definition submit_rx_ready (t : Transmitter) : Transmitter :=
  {| _tx_queue := _tx_queue t;
     _tx_wakeup_needed := _tx_wakeup_needed t;
     _rx_ready := S (_rx_ready t) |}.

Definition set_tx_queue (t : Transmitter) (q : Queue) : Transmitter :=
  {| _tx_queue := q;
     _tx_wakeup_needed := _tx_wakeup_needed t;
     _rx_ready := _rx_ready t |}.

Definition set_tx_wakeup_needed (t : Transmitter) (b : bool) : Transmitter :=
  {| _tx_queue := _tx_queue t;
     _tx_wakeup_needed := b;
     _rx_ready := _rx_ready t |}.

Definition ready_for_tx (t : Transmitter) : bool :=
  negb (full QUEUE_SIZE (_tx_queue t)).

(** What the receiving side does to the shared queue while the
    transmitter waits for a signal: it takes [n] descriptors, each after
    having found the queue not empty. *)
Fixpoint peer_takes (n : nat) (q : Queue) : Queue :=
  match n with
  | O => q
  | S n' => if empty q then q else peer_takes n' (get QUEUE_SIZE q).2
  end.

(** [_tx_ready.wait_for_signal()]: [signals] lists the signals that
    are going to arrive, each with the number of descriptors the
    receiving side has taken when the signal wakes the transmitter up.
    Without a signal to come, the call blocks forever. *)
Definition wait_for_signal (signals : list nat) (q : Queue)
  : option (Queue * list nat) :=
  match signals with
  | [] => None
  | n :: signals' => Some (peer_takes n q, signals')
  end.

(** The loop of [tx], [fuel] bounds the number of its iterations. The
    receiving side is taken to act on the shared queue only while the
    transmitter is suspended in [wait_for_signal]; between two suspension
    points the transmitter runs without interference. *)
Fixpoint tx_loop (fuel : nat) (signals : list nat) (q : Queue)
  (packet : Packet_descriptor) : option (Queue * list nat) :=
  match fuel with
  | O => None
  | S fuel' =>
      match (if full QUEUE_SIZE q then wait_for_signal signals q
             else Some (q, signals)) with
      | None => None
      | Some (q1, signals1) =>
          let '(ok, q2) := add QUEUE_SIZE q1 packet in
          if ok then Some (q2, signals1)
          else tx_loop fuel' signals1 q2 packet
      end
  end.

(** Each iteration but the first waits for a signal, so the loop runs
    at most once more than there are signals. *)
Definition tx (t : Transmitter) (signals : list nat)
  (packet : Packet_descriptor) : option (Transmitter * list nat) :=
  match tx_loop (S (length signals)) signals (_tx_queue t) packet with
  | None => None
  | Some (q, signals') =>
      let t1 := set_tx_queue t q in
      Some (if single_element QUEUE_SIZE (_tx_queue t1)
            then submit_rx_ready t1 else t1, signals')
  end.

Definition try_tx (t : Transmitter) (packet : Packet_descriptor)
  : bool * Transmitter :=
  if full QUEUE_SIZE (_tx_queue t) then (false, t)
  else
    let t1 := set_tx_queue t (add QUEUE_SIZE (_tx_queue t) packet).2 in
    let t2 := if single_element QUEUE_SIZE (_tx_queue t1)
              then set_tx_wakeup_needed t1 true else t1 in
    (true, t2).

Definition tx_wakeup (t : Transmitter) : bool * Transmitter :=
  let '(signal_submitted, t1) :=
    if _tx_wakeup_needed t then (true, submit_rx_ready t) else (false, t) in
  (signal_submitted, set_tx_wakeup_needed t1 false).

Definition tx_slots_free (t : Transmitter) : Z :=
  slots_free QUEUE_SIZE (_tx_queue t).

(** Calls [try_tx] for each of the descriptors. *)
Fixpoint try_tx_all (t : Transmitter) (packets : list Packet_descriptor)
  : Transmitter :=
  match packets with
  | [] => t
  | packet :: packets' => try_tx_all (try_tx t packet).2 packets'
  end.

End Packet_descriptor_transmitter.

(** ** The common base of source and sink *)

Inductive Exception :=
| Transport_dataspace_too_small
| Invalid_packet
| Packet_alloc_failed.

(** A call returns a value or throws. *)
Inductive Result (T : Type) :=
| Ok (value : T)
| Throw (e : Exception).

Arguments Ok {T} value.
Arguments Throw {T} e.

(** The members of [Packet_stream_base]. *)
Record Base := mk_base {
  _ds_local_base : Z;
  _ds_size : Z;
  _submit_queue_offset : Z;
  _ack_queue_offset : Z;
  _bulk_buffer_offset : Z;
  _bulk_buffer_size : Z
}.

Definition nullptr : Z := 0.

(** [sizeof(char)] *)
Definition sizeof_char : Z := 1.

Section Packet_stream_base.

Variable arch : Arch.

(** Conversion to [Genode::size_t] and [Genode::addr_t]. *)
Definition size_t (x : Z) : Z := wrap (word_bits arch) x.
Definition addr_t (x : Z) : Z := wrap (word_bits arch) x.

(** Conversion to [Genode::off_t]. *)
Definition off_t (x : Z) : Z := swrap (word_bits arch) x.

(** Modelled from the spec: [align_addr] ([util/misc_math.h] is not
    among the sources). The bulk buffer starts "at the next alignment
    boundary": the address is rounded up to the next multiple of
    [2 ^ align], in the arithmetic of the machine word. *)
Definition align_addr (addr align : Z) : Z :=
  size_t (2 ^ align * (size_t (addr + (2 ^ align - 1)) / 2 ^ align)).

(** The constructor: [local_base] is the address at which the region map
    attaches the dataspace, [ds_size] the size of the dataspace. *)
Definition Packet_stream_base (local_base ds_size : Z)
  (submit_queue_size ack_queue_size : Z) : Result Base :=
  let submit_queue_offset := 0 in
  let ack_queue_offset := off_t (size_t (submit_queue_offset + submit_queue_size)) in
  let bulk_buffer_offset :=
    off_t (align_addr (size_t (ack_queue_offset + ack_queue_size)) 6) in
  if size_t bulk_buffer_offset >=? ds_size
  then Throw Transport_dataspace_too_small
  else Ok {| _ds_local_base := local_base;
             _ds_size := ds_size;
             _submit_queue_offset := submit_queue_offset;
             _ack_queue_offset := ack_queue_offset;
             _bulk_buffer_offset := bulk_buffer_offset;
             _bulk_buffer_size := size_t (ds_size - size_t bulk_buffer_offset) |}.

Definition _bulk_buffer_local_base (b : Base) : Z :=
  addr_t (_ds_local_base b + addr_t (_bulk_buffer_offset b)).

Definition packet_valid (b : Base) (packet : Packet_descriptor) : bool :=
  (size packet =? 0) ||
  ((offset packet >=? _bulk_buffer_offset b)
   && (offset packet
       <? off_t (_bulk_buffer_offset b + off_t (_bulk_buffer_size b)))
   && (size_t (size_t (offset packet) + size packet)
       <=? size_t (size_t (_bulk_buffer_offset b) + _bulk_buffer_size b))).

(** [packet_content<CONTENT_TYPE>], with [sizeof(CONTENT_TYPE)] as
    argument; the result is the address of the content. *)
Definition packet_content (sizeof_content : Z) (b : Base)
  (packet : Packet_descriptor) : Result Z :=
  if size packet =? 0 then Ok nullptr
  else if negb (packet_valid b packet) || (size packet <? sizeof_content)
  then Throw Invalid_packet
  else Ok (addr_t (_ds_local_base b + addr_t (offset packet))).

(** The values a descriptor can hold. *)
Definition packet_typed (packet : Packet_descriptor) : Prop :=
  is_signed (word_bits arch) (offset packet) /\
  is_unsigned (word_bits arch) (size packet).

(** The byte range [offset, offset+size) of the descriptor lies within
    the bulk buffer [_bulk_buffer_offset,
    _bulk_buffer_offset + _bulk_buffer_size). *)
Definition in_bulk_buffer (b : Base) (packet : Packet_descriptor) : Prop :=
  _bulk_buffer_offset b <= offset packet /\
  offset packet + size packet <= _bulk_buffer_offset b + _bulk_buffer_size b.

(** A base whose bulk buffer ends below the largest [off_t]. *)
Definition base_ok (b : Base) : Prop :=
  0 <= _bulk_buffer_offset b /\ 0 < _bulk_buffer_size b /\
  _bulk_buffer_offset b + _bulk_buffer_size b < 2 ^ (word_bits arch - 1).

End Packet_stream_base.

(** ** The source: packet allocation *)

(** Modelled from the spec: the bulk-buffer allocator, which the source
    uses through the interface [Genode::Range_allocator]
    ([base/allocator.h] is not among the sources). [alloc_aligned]
    returns the new state and the base address of the range it assigned,
    or no address when it cannot provide a range. *)
Class Range_allocator (A : Type) := {
  add_range : A -> Z -> Z -> A;
  remove_range : A -> Z -> Z -> A;
  alloc_aligned : A -> Z -> Z -> A * option Z;
  free : A -> Z -> Z -> A
}.

(** Default packet alignment used in allocation. *)
Definition PACKET_ALIGNMENT : Z := 0.

Inductive Source_op :=
| Op_alloc (size align : Z)
| Op_release (packet : Packet_descriptor).

Section Packet_stream_source.

Variable arch : Arch.
Context {A : Type} `{Range_allocator A}.

(** The body of the constructor: the bulk buffer becomes the range the
    allocator manages. *)
Definition Packet_stream_source (b : Base) (packet_alloc : A) : A :=
  add_range packet_alloc (_bulk_buffer_offset b) (_bulk_buffer_size b).

Definition alloc_packet (packet_alloc : A) (size align : Z)
  : A * Result Packet_descriptor :=
  if size =? 0 then (packet_alloc, Ok (mk_packet (off_t arch 0) size))
  else
    match alloc_aligned packet_alloc size align with
    | (packet_alloc', None) => (packet_alloc', Throw Packet_alloc_failed)
    | (packet_alloc', Some base) =>
        (packet_alloc', Ok (mk_packet (off_t arch base) size))
    end.

Definition release_packet (packet_alloc : A) (packet : Packet_descriptor) : A :=
  if size packet =? 0 then packet_alloc
  else free packet_alloc (addr_t arch (offset packet)) (size packet).

(** Runs allocations and releases; returns the final allocator state
    and the results of the allocations, the latest first. *)
Fixpoint run_source (packet_alloc : A) (ops : list Source_op)
  : A * list (Result Packet_descriptor) :=
  match ops with
  | [] => (packet_alloc, [])
  | Op_alloc size align :: ops' =>
      let '(packet_alloc', r) := alloc_packet packet_alloc size align in
      let '(packet_alloc'', rs) := run_source packet_alloc' ops' in
      (packet_alloc'', r :: rs)
  | Op_release packet :: ops' =>
      run_source (release_packet packet_alloc packet) ops'
  end.

End Packet_stream_source.

(** Two byte ranges, each given by base and size, do not overlap. *)
Definition disjoint_ranges (b1 s1 b2 s2 : Z) : Prop :=
  b1 + s1 <= b2 \/ b2 + s2 <= b1.

(** Modelled from the spec: the contract of the range allocator, whose
    ranges are exclusively owned until released. [in_use a b s] holds
    when the range of base [b] and size [s] is allocated in the state [a].
    Allocated ranges stay allocated over further allocations and over the
    release of ranges that do not overlap them; a newly assigned range is
    an address range of the machine and overlaps no allocated one. *)
Class Range_allocator_contract (arch : Arch) (A : Type) `{Range_allocator A} := {
  in_use : A -> Z -> Z -> Prop;
  alloc_aligned_keeps a size align b0 s0 :
    in_use a b0 s0 -> in_use (alloc_aligned a size align).1 b0 s0;
  alloc_aligned_fresh a size align base :
    0 < size -> (alloc_aligned a size align).2 = Some base ->
    is_unsigned (word_bits arch) base /\
    in_use (alloc_aligned a size align).1 base size /\
    forall b0 s0, in_use a b0 s0 -> disjoint_ranges b0 s0 base size;
  free_keeps a b s b0 s0 :
    0 < s -> in_use a b0 s0 -> disjoint_ranges b0 s0 b s ->
    in_use (free a b s) b0 s0
}.

(** An allocator that records the calls it receives. *)
Inductive Call :=
| Call_add_range (base size : Z)
| Call_remove_range (base size : Z)
| Call_alloc_aligned (size align : Z)
| Call_free (addr size : Z).

Record Recorded (A : Type) := mk_recorded { inner : A; calls : list Call }.

Arguments mk_recorded {A} inner calls.
Arguments inner {A} r.
Arguments calls {A} r.

#[global] Instance Recorded_allocator {A : Type} `{Range_allocator A}
  : Range_allocator (Recorded A) := {
  add_range r base size :=
    mk_recorded (add_range (inner r) base size)
                (Call_add_range base size :: calls r);
  remove_range r base size :=
    mk_recorded (remove_range (inner r) base size)
                (Call_remove_range base size :: calls r);
  alloc_aligned r size align :=
    let '(a, res) := alloc_aligned (inner r) size align in
    (mk_recorded a (Call_alloc_aligned size align :: calls r), res);
  free r addr size :=
    mk_recorded (free (inner r) addr size) (Call_free addr size :: calls r)
}.

(** ** A first-fit range allocator *)

(** An allocator that satisfies the contract: it keeps the ranges added
    to it and the ranges in use, and assigns the first aligned address at
    the start of a range or behind a range in use at which the request
    fits. *)
Module First_fit.

Record State := mk_state {
  ranges : list (Z * Z);
  used : list (Z * Z)
}.

Definition round_up (x align : Z) : Z :=
  2 ^ align * ((x + 2 ^ align - 1) / 2 ^ align).

Definition overlaps (b1 s1 b2 s2 : Z) : bool :=
  (b1 <? b2 + s2) && (b2 <? b1 + s1).

Definition within (x size : Z) (r : Z * Z) : bool :=
  (r.1 <=? x) && (x + size <=? r.1 + r.2).

Definition fits (arch : Arch) (a : State) (size x : Z) : bool :=
  (0 <=? x) && (x + size <? 2 ^ word_bits arch)
  && existsb (within x size) (ranges a)
  && forallb (fun r => negb (overlaps r.1 r.2 x size)) (used a).

Definition candidates (a : State) (align : Z) : list Z :=
  map (fun r => round_up r.1 align) (ranges a)
  ++ map (fun r => round_up (r.1 + r.2) align) (used a).

Definition alloc (arch : Arch) (a : State) (size align : Z)
  : State * option Z :=
  match List.find (fits arch a size) (candidates a align) with
  | Some x => ({| ranges := ranges a; used := (x, size) :: used a |}, Some x)
  | None => (a, None)
  end.

(** Releases the ranges in use that contain [addr]. *)
Definition release (a : State) (addr size : Z) : State :=
  {| ranges := ranges a;
     used := List.filter
               (fun r => negb ((r.1 <=? addr) && (addr <? r.1 + r.2)))
               (used a) |}.

Definition allocator (arch : Arch) : Range_allocator State := {|
  add_range a base size :=
    {| ranges := (base, size) :: ranges a; used := used a |};
  remove_range a base size :=
    {| ranges := List.filter
                   (fun r => negb ((r.1 =? base) && (r.2 =? size)))
                   (ranges a);
       used := used a |};
  alloc_aligned := alloc arch;
  free := release
|}.

Definition allocated (a : State) (b s : Z) : Prop := In (b, s) (used a).

End First_fit.

(** ** Statements about allocations and queue states *)

(** The range a descriptor denotes overlaps no range denoted by [d']. *)
Definition disjoint_packets (arch : Arch) (d d' : Packet_descriptor) : Prop :=
  disjoint_ranges (addr_t arch (offset d)) (size d)
                  (addr_t arch (offset d')) (size d').

(** An operation of the source that leaves the range of [d] allocated:
    an allocation, or the release of a descriptor that is empty or does
    not overlap [d]. *)
Definition spares (arch : Arch) (d : Packet_descriptor) (op : Source_op) : Prop :=
  match op with
  | Op_alloc size _ => 0 <= size
  | Op_release packet =>
      size packet = 0 \/ (0 < size packet /\ disjoint_packets arch d packet)
  end.

(** The statement of C7 for one state of a queue of capacity [N]:
    with [k] the number of descriptors held, [empty] iff [k = 0], [full]
    iff [k = N-1], [single_element] iff [k = 1], [single_slot_free] iff
    [k = N-2], and [slots_free] is [N-1-k]. *)
Definition predicates_match_count (N : Z) (q : Queue) : Prop :=
  let k := (_head q - _tail q) mod N in
  0 <= k <= N - 1 /\
  (empty q = true <-> k = 0) /\
  (full N q = true <-> k = N - 1) /\
  (single_element N q = true <-> k = 1) /\
  (single_slot_free N q = true <-> k = N - 2) /\
  slots_free N q = N - 1 - k.

(** * Proofs *)

(** ** Machine integers *)

Lemma word_bits_pos a : 0 < word_bits a.
Proof. destruct a; reflexivity. Qed.

Lemma wrap_small w x : is_unsigned w x -> wrap w x = x.
Proof. intros H. apply Z.mod_small. exact H. Qed.

Lemma u32_small x : 0 <= x < 2 ^ 32 -> u32 x = x.
Proof. apply wrap_small. Qed.


(** ** Arithmetic of the ring indices *)

Lemma mod_wrap_add n x d :
  0 <= x < n -> 0 <= d <= n ->
  (x + d) mod n = if decide (x + d < n) then x + d else x + d - n.
Proof.
  intros Hx Hd. case_decide.
  - apply Z.mod_small. lia.
  - symmetry. apply Z.mod_unique with 1; lia.
Qed.

Lemma mod_wrap_sub n x y :
  0 <= x < n -> 0 <= y < n ->
  (x - y) mod n = if decide (y <= x) then x - y else x - y + n.
Proof.
  intros Hx Hy. case_decide.
  - apply Z.mod_small. lia.
  - symmetry. apply Z.mod_unique with (-1); lia.
Qed.

Lemma u32_index n x d :
  0 < n < 2 ^ 31 -> 0 <= x < n -> 0 <= d <= n -> u32 (x + d) = x + d.
Proof. intros Hn Hx Hd. apply u32_small. lia. Qed.

Section Queue_lemmas.

Variable N : Z.
Hypothesis HN : valid_queue_size N.

Lemma wf_constructed mem : queue_block N mem -> wf N (constructed mem).
Proof.
  unfold queue_block, wf, valid_queue_size in *. intros Hmem. simpl.
  rewrite length_replicate. lia.
Qed.

Lemma next_index_range x : 0 <= x < N -> 0 <= u32 (x + 1) mod N < N.
Proof. intros _. apply Z.mod_pos_bound. unfold valid_queue_size in HN. lia. Qed.

Lemma wf_add q packet : wf N q -> wf N (add N q packet).2.
Proof.
  intros (Hh & Ht & Hl). unfold add. destruct (full N q); unfold wf; simpl.
  - done.
  - split; [by apply next_index_range|]. split; [done|].
    by rewrite length_insert.
Qed.

Lemma wf_get q : wf N q -> wf N (get N q).2.
Proof.
  intros (Hh & Ht & Hl). unfold get, wf; simpl.
  split; [done|]. split; [by apply next_index_range|done].
Qed.

Lemma reachable_wf q : reachable N q -> wf N q.
Proof.
  induction 1; [by apply wf_constructed|by apply wf_add|by apply wf_get].
Qed.

Lemma count_range q : wf N q -> 0 <= count N q <= N - 1.
Proof.
  intros _. unfold count, valid_queue_size in *.
  pose proof (Z.mod_pos_bound (_head q - _tail q) N). lia.
Qed.

(** The state predicates in terms of [count]. *)

Lemma empty_count q : wf N q -> empty q = true <-> count N q = 0.
Proof.
  intros (Hh & Ht & _). unfold empty, count.
  rewrite mod_wrap_sub by done. rewrite Z.eqb_eq. case_decide; lia.
Qed.

Lemma full_count q : wf N q -> full N q = true <-> count N q = N - 1.
Proof.
  intros (Hh & Ht & _). unfold full, count, valid_queue_size in *.
  rewrite (u32_index N) by (done || lia).
  rewrite mod_wrap_add, mod_wrap_sub by (done || lia).
  rewrite Z.eqb_eq. repeat case_decide; lia.
Qed.

Lemma slots_free_count q : wf N q -> slots_free N q = N - 1 - count N q.
Proof.
  intros (Hh & Ht & _). unfold slots_free, count, valid_queue_size in *.
  rewrite mod_wrap_sub by done.
  destruct (Z.gtb_spec (_tail q) (_head q)); case_decide; try lia.
  - rewrite (u32_small (_tail q - _head q)) by lia. rewrite u32_small; lia.
  - rewrite (u32_small (N - _head q)) by lia.
    rewrite (u32_small (N - _head q + _tail q)) by lia.
    rewrite u32_small; lia.
Qed.

Section At_least_two.

Hypothesis HN2 : 2 <= N.

Lemma single_element_count q :
  wf N q -> single_element N q = true <-> count N q = 1.
Proof.
  intros (Hh & Ht & _). unfold single_element, count, valid_queue_size in *.
  rewrite (u32_index N) by (done || lia).
  rewrite mod_wrap_add, mod_wrap_sub by (done || lia).
  rewrite Z.eqb_eq. repeat case_decide; lia.
Qed.

Lemma single_slot_free_count q :
  wf N q -> single_slot_free N q = true <-> count N q = N - 2.
Proof.
  intros (Hh & Ht & _). unfold single_slot_free, count, valid_queue_size in *.
  rewrite (u32_index N) by (done || lia).
  rewrite mod_wrap_add, mod_wrap_sub by (done || lia).
  rewrite Z.eqb_eq. repeat case_decide; lia.
Qed.

End At_least_two.

End Queue_lemmas.

Section Fifo_lemmas.

Variable N : Z.
Hypothesis HN : valid_queue_size N.

Lemma count_add q packet :
  wf N q -> full N q = false ->
  count N (add N q packet).2 = count N q + 1.
Proof.
  intros Hwf Hfull. pose proof (count_range N HN q Hwf) as Hc.
  assert (count N q <> N - 1) as Hne.
  { intros E. apply (full_count N HN q Hwf) in E. congruence. }
  destruct Hwf as (Hh & Ht & _). unfold add. rewrite Hfull. simpl.
  unfold count, valid_queue_size in *. simpl.
  rewrite (u32_index N) by (done || lia).
  rewrite (mod_wrap_add N (_head q) 1) by lia.
  rewrite mod_wrap_sub in Hc, Hne by done.
  repeat case_decide; rewrite !mod_wrap_sub by lia; repeat case_decide; lia.
Qed.

Lemma count_get q :
  wf N q -> empty q = false ->
  count N (get N q).2 = count N q - 1.
Proof.
  intros Hwf Hempty. pose proof (count_range N HN q Hwf) as Hc.
  assert (count N q <> 0) as Hne.
  { intros E. apply (empty_count N q Hwf) in E. congruence. }
  destruct Hwf as (Hh & Ht & _).
  unfold count, valid_queue_size in *. simpl.
  rewrite (u32_index N) by (done || lia).
  rewrite (mod_wrap_add N (_tail q) 1) by lia.
  rewrite mod_wrap_sub in Hc, Hne by done.
  repeat case_decide; rewrite !mod_wrap_sub by lia; repeat case_decide; lia.
Qed.

(** The slot written by [add] is the one after the last descriptor. *)
Lemma head_slot q :
  wf N q -> _head q mod N = (_tail q + count N q) mod N.
Proof.
  intros (Hh & Ht & _). unfold count, valid_queue_size in *.
  rewrite Zplus_mod_idemp_r. f_equal. lia.
Qed.

Lemma ring_slot_inj t i j :
  0 <= i < N -> 0 <= j < N ->
  slot ((t + i) mod N) = slot ((t + j) mod N) -> i = j.
Proof.
  unfold slot, valid_queue_size in *. intros Hi Hj E.
  pose proof (Z.mod_pos_bound (t + i) N) as Hbi.
  pose proof (Z.mod_pos_bound (t + j) N) as Hbj.
  apply Z2Nat.inj in E; [|lia..].
  assert ((i - j) mod N = 0) as Hd.
  { replace (i - j) with ((t + i) - (t + j)) by lia.
    rewrite Zminus_mod, E, Z.sub_diag. apply Z.mod_0_l. lia. }
  destruct (decide (j <= i)).
  - rewrite Z.mod_small in Hd by lia. lia.
  - assert ((i - j) mod N = i - j + N) as Hw.
    { symmetry. apply Z.mod_unique with (-1); lia. }
    lia.
Qed.

Lemma contents_add q packet :
  wf N q -> full N q = false ->
  contents N (add N q packet).2 = contents N q ++ [packet].
Proof.
  intros Hwf Hfull. pose proof (count_range N HN q Hwf) as Hc.
  pose proof (count_add q packet Hwf Hfull) as Hcount.
  pose proof (head_slot q Hwf) as Hslot.
  destruct Hwf as (Hh & Ht & Hl). unfold contents. rewrite Hcount.
  unfold add in *. rewrite Hfull in *. simpl in *.
  replace (Z.to_nat (count N q + 1)) with (S (Z.to_nat (count N q))) by lia.
  rewrite seq_S, map_app. simpl. f_equal.
  - apply map_ext_in. intros i Hi. apply in_seq in Hi.
    apply list_lookup_total_insert_ne. rewrite Hslot. intros E.
    apply ring_slot_inj in E; lia.
  - rewrite Z2Nat.id by lia. rewrite <- Hslot. f_equal.
    apply list_lookup_total_insert_eq. unfold slot, valid_queue_size in *.
    pose proof (Z.mod_pos_bound (_head q) N). lia.
Qed.

Lemma contents_get q :
  wf N q -> empty q = false ->
  contents N q = (get N q).1 :: contents N (get N q).2.
Proof.
  intros Hwf Hempty. pose proof (count_range N HN q Hwf) as Hc.
  pose proof (count_get q Hwf Hempty) as Hcount.
  assert (count N q <> 0) as Hne.
  { intros E. apply (empty_count N q Hwf) in E. congruence. }
  destruct Hwf as (Hh & Ht & Hl). unfold contents. rewrite Hcount.
  unfold get in *. simpl in *.
  replace (Z.to_nat (count N q)) with (S (Z.to_nat (count N q - 1))) by lia.
  simpl. f_equal.
  - by rewrite Z.add_0_r.
  - rewrite <- seq_shift, map_map. apply map_ext. intros i.
    do 2 f_equal. rewrite Zplus_mod_idemp_l.
    unfold valid_queue_size in *. rewrite (u32_index N) by (done || lia).
    f_equal. lia.
Qed.

Lemma contents_empty q : wf N q -> empty q = true -> contents N q = [].
Proof.
  intros Hwf He. apply (empty_count N q Hwf) in He.
  unfold contents. by rewrite He.
Qed.

Lemma contents_constructed mem :
  queue_block N mem -> contents N (constructed mem) = [].
Proof.
  intros Hmem. apply contents_empty; [by apply wf_constructed|done].
Qed.

Lemma drain_contents fuel q :
  wf N q -> count N q <= Z.of_nat fuel -> drain N fuel q = contents N q.
Proof.
  revert q. induction fuel as [|fuel IH]; intros q Hwf Hfuel.
  - pose proof (count_range N HN q Hwf). unfold contents.
    by replace (count N q) with 0 by lia.
  - simpl. destruct (empty q) eqn:He.
    + by rewrite contents_empty.
    + rewrite (contents_get q Hwf He). unfold get at 1. f_equal.
      apply IH; [by apply wf_get|]. rewrite count_get by done. lia.
Qed.

Lemma run_contents ops : forall q,
  wf N q -> respects_checks N q ops = true ->
  (run N q ops).1 ++ contents N (run N q ops).2 = contents N q ++ added ops.
Proof.
  induction ops as [|[packet|] ops IH]; intros q Hwf Hok; simpl in *.
  - by rewrite app_nil_r.
  - apply andb_prop in Hok as [Hfull Hok]. apply negb_true_iff in Hfull.
    rewrite IH by (by try apply wf_add).
    rewrite contents_add by done. by rewrite <- app_assoc.
  - apply andb_prop in Hok as [Hempty Hok]. apply negb_true_iff in Hempty.
    specialize (IH (get N q).2 (wf_get N HN q Hwf) Hok).
    rewrite (contents_get q Hwf Hempty).
    unfold get in *. simpl in *.
    destruct (run N _ ops) as [out q'']. simpl in *. by rewrite IH.
Qed.

Lemma run_wf ops : forall q, wf N q -> wf N (run N q ops).2.
Proof.
  induction ops as [|[packet|] ops IH]; intros q Hwf; simpl.
  - done.
  - apply IH. by apply wf_add.
  - specialize (IH (get N q).2 (wf_get N HN q Hwf)).
    unfold get in *. simpl in *. by destruct (run N _ ops).
Qed.

End Fifo_lemmas.

(** ** Properties of the packet-descriptor queue *)

Section Capacity_lemmas.

Variable N : Z.
Hypothesis HN : valid_queue_size N.

Lemma add_full q packet : full N q = true -> add N q packet = (false, q).
Proof. intros Hfull. unfold add. by rewrite Hfull. Qed.

Lemma add_not_full q packet : full N q = false -> (add N q packet).1 = true.
Proof. intros Hfull. unfold add. by rewrite Hfull. Qed.

Lemma full_false_count q : wf N q -> count N q < N - 1 -> full N q = false.
Proof.
  intros Hwf Hc. destruct (full N q) eqn:E; [|done].
  apply (full_count N HN q Hwf) in E. lia.
Qed.

Lemma add_all_fits packets : forall q,
  wf N q -> count N q + Z.of_nat (length packets) <= N - 1 ->
  (add_all N q packets).1 = replicate (length packets) true /\
  wf N (add_all N q packets).2 /\
  count N (add_all N q packets).2 = count N q + Z.of_nat (length packets).
Proof.
  induction packets as [|packet packets IH]; intros q Hwf Hc; simpl in *.
  - split; [done|]. split; [done|lia].
  - assert (full N q = false) as Hfull by (apply full_false_count; [done|lia]).
    pose proof (count_add N HN q packet Hwf Hfull) as Hcount.
    pose proof (wf_add N HN q packet Hwf) as Hwf'.
    unfold add in *. rewrite Hfull in *. simpl in *.
    match goal with |- context [add_all N ?q' packets] =>
      destruct (IH q' Hwf') as (IH1 & IH2 & IH3); [lia|];
      destruct (add_all N q' packets) as [oks q'']
    end.
    simpl in *. rewrite IH1. split; [done|]. split; [done|lia].
Qed.

Lemma add_all_full packets : forall q,
  full N q = true ->
  add_all N q packets = (replicate (length packets) false, q).
Proof.
  induction packets as [|packet packets IH]; intros q Hfull; simpl.
  - done.
  - rewrite add_full by done. by rewrite IH.
Qed.

Lemma count_constructed mem : count N (constructed mem) = 0.
Proof. unfold count, valid_queue_size in *. simpl. apply Z.mod_0_l. lia. Qed.

End Capacity_lemmas.

(** C1: for every sequence of [add] and [get] operations on a queue in
    which each [add] is performed only when [full] is false and each
    [get] only when [empty] is false, the queue behaves as a FIFO list:
    the calls of [get] return a prefix of the added descriptors, in the
    order they were added, and the descriptors not yet returned are
    exactly those still held by the queue, so none is lost or
    duplicated. *)
Theorem queue_fifo N mem ops :
  valid_queue_size N -> queue_block N mem ->
  respects_checks N (constructed mem) ops = true ->
  let gotten := (run N (constructed mem) ops).1 in
  let q := (run N (constructed mem) ops).2 in
  gotten = take (length gotten) (added ops) /\
  gotten ++ drain N (Z.to_nat N) q = added ops.
Proof.
  intros HN Hmem Hops gotten q.
  pose proof (wf_constructed N HN mem Hmem) as Hwf.
  pose proof (run_contents N HN ops _ Hwf Hops) as Hrun.
  pose proof (run_wf N HN ops _ Hwf) as Hwfq.
  rewrite contents_constructed in Hrun by done. simpl in Hrun.
  fold gotten q in Hrun, Hwfq.
  assert (drain N (Z.to_nat N) q = contents N q) as ->.
  { apply (drain_contents N HN); [done|].
    pose proof (count_range N HN q Hwfq). unfold valid_queue_size in HN. lia. }
  split; [|done]. rewrite <- Hrun. by rewrite take_app_length.
Qed.

Lemma queue_fifo_witness :
  let mem := mk_queue 7 9 (replicate 3 (mk_packet 5 5)) in
  let ops := [Op_add (mk_packet 64 8); Op_add (mk_packet 128 16); Op_get;
              Op_add (mk_packet 192 4); Op_get] in
  (run 3 (constructed mem) ops).1 = [mk_packet 64 8; mk_packet 128 16] /\
  (run 3 (constructed mem) ops).1 ++ drain 3 3 (run 3 (constructed mem) ops).2
    = added ops.
Proof.
  intros mem ops. split; [reflexivity|].
  apply (queue_fifo 3 mem ops); [unfold valid_queue_size; lia|reflexivity..].
Defined.

(** C2: [add] returns false and leaves the queue unchanged whenever
    [full] holds; starting from the constructed (empty) queue of capacity
    [N], [N-1] consecutive adds succeed, the [N]-th and every further add
    fails without changing the queue, and an add succeeds again once a
    descriptor has been taken by [get]. *)
Theorem add_capacity N mem packets packet more q :
  valid_queue_size N -> queue_block N mem ->
  length packets = Z.to_nat (N - 1) ->
  (full N q = true -> add N q packet = (false, q)) /\
  let filled := (add_all N (constructed mem) packets).2 in
  (add_all N (constructed mem) packets).1 = replicate (Z.to_nat (N - 1)) true /\
  add N filled packet = (false, filled) /\
  add_all N filled more = (replicate (length more) false, filled) /\
  (2 <= N -> (add N (get N filled).2 packet).1 = true).
Proof.
  intros HN Hmem Hlen. split; [apply add_full|]. intros filled.
  pose proof (wf_constructed N HN mem Hmem) as Hwf.
  pose proof (count_constructed N HN mem) as Hc0.
  destruct (add_all_fits N HN packets (constructed mem) Hwf) as (Hoks & Hwf' & Hc).
  { unfold valid_queue_size in HN. lia. }
  fold filled in Hwf', Hc.
  assert (count N filled = N - 1) as Hcount.
  { unfold valid_queue_size in HN. lia. }
  assert (full N filled = true) as Hfull by (by apply (full_count N HN)).
  split; [by rewrite Hoks, Hlen|]. split; [by apply add_full|].
  split; [by apply add_all_full|]. intros HN2.
  apply add_not_full. apply (full_false_count N HN); [by apply wf_get|].
  rewrite count_get; [lia|done..|].
  destruct (empty filled) eqn:He; [|done].
  apply (empty_count N filled Hwf') in He. lia.
Qed.

Lemma add_capacity_witness :
  let mem := mk_queue 3 1 (replicate 4 (mk_packet 1 1)) in
  let packets := [mk_packet 64 8; mk_packet 128 8; mk_packet 192 8] in
  let filled := (add_all 4 (constructed mem) packets).2 in
  (add_all 4 (constructed mem) packets).1 = [true; true; true] /\
  add 4 filled (mk_packet 256 8) = (false, filled) /\
  (add 4 (get 4 filled).2 (mk_packet 256 8)).1 = true.
Proof.
  intros mem packets filled.
  destruct (add_capacity 4 mem packets (mk_packet 256 8) [] filled)
    as (_ & H1 & H2 & _ & H3);
    [unfold valid_queue_size; lia|reflexivity|reflexivity|].
  split; [exact H1|]. split; [exact H2|]. apply H3. lia.
Defined.

(** C7, as amended: for every reachable state of a queue of capacity
    [N >= 2] holding [k] descriptors, [empty] returns true iff [k = 0],
    [full] iff [k = N-1], [single_element] iff [k = 1],
    [single_slot_free] iff [k = N-2], and [slots_free] returns [N-1-k]. *)
Theorem queue_predicates N q :
  valid_queue_size N -> 2 <= N -> reachable N q ->
  predicates_match_count N q.
Proof.
  intros HN HN2 Hq. apply (reachable_wf N HN) in Hq.
  unfold predicates_match_count. fold (count N q).
  split; [by apply count_range|].
  split; [by apply empty_count|].
  split; [by apply full_count|].
  split; [by apply single_element_count|].
  split; [by apply single_slot_free_count|].
  by apply slots_free_count.
Qed.

Lemma queue_predicates_witness :
  let mem := mk_queue 0 0 (replicate 4 default_packet) in
  predicates_match_count 4
    (get 4 (add 4 (add 4 (constructed mem) (mk_packet 64 8)).2 (mk_packet 128 8)).2).2.
Proof.
  intros mem. apply queue_predicates; [unfold valid_queue_size; lia|lia|].
  apply reachable_get, reachable_add, reachable_add, reachable_constructed.
  reflexivity.
Defined.

(** C7 as stated fails for the capacity 1: the only reachable state
    holds no descriptor, yet [single_element] and [single_slot_free]
    return true. *)
Lemma queue_predicates_capacity_one :
  let q := constructed (mk_queue 0 0 [default_packet]) in
  valid_queue_size 1 /\ reachable 1 q /\
  (_head q - _tail q) mod 1 = 0 /\
  single_element 1 q = true /\ single_slot_free 1 q = true /\
  ~ predicates_match_count 1 q.
Proof.
  intros q. split; [unfold valid_queue_size; lia|].
  split; [by apply reachable_constructed|].
  split; [reflexivity|]. split; [reflexivity|]. split; [reflexivity|].
  intros (_ & _ & _ & [Hs _] & _). specialize (Hs eq_refl). discriminate Hs.
Qed.

Section Transmitter_lemmas.

Variable N : Z.
Hypothesis HN : valid_queue_size N.

Lemma not_full_capacity q : wf N q -> full N q = false -> 2 <= N.
Proof.
  intros Hwf Hfull. pose proof (count_range N HN q Hwf) as Hc.
  destruct (decide (N = 1)) as [->|]; [|unfold valid_queue_size in HN; lia].
  assert (full 1 q = true) as E by (apply full_count; [done..|lia]).
  congruence.
Qed.

Lemma wf_peer_takes n : forall q, wf N q -> wf N (peer_takes N n q).
Proof.
  induction n as [|n IH]; intros q Hwf; simpl; [done|].
  destruct (empty q); [done|]. apply IH. by apply wf_get.
Qed.

Lemma wf_wait_for_signal signals q q' signals' :
  wf N q -> wait_for_signal N signals q = Some (q', signals') -> wf N q'.
Proof.
  intros Hwf. destruct signals as [|n signals]; simpl; [done|].
  intros [= <- _]. by apply wf_peer_takes.
Qed.

(** When the loop of [tx] is left, it is by a successful [add]. *)
Lemma tx_loop_added packet fuel : forall signals q q' signals',
  wf N q -> tx_loop N fuel signals q packet = Some (q', signals') ->
  exists q1, wf N q1 /\ add N q1 packet = (true, q').
Proof.
  induction fuel as [|fuel IH]; intros signals q q' signals' Hwf; simpl; [done|].
  destruct (if full N q then wait_for_signal N signals q else Some (q, signals))
    as [[q1 signals1]|] eqn:Hwait; [|done].
  assert (wf N q1) as Hwf1.
  { destruct (full N q); [by eapply wf_wait_for_signal|by simplify_eq]. }
  destruct (add N q1 packet) as [ok q2] eqn:Hadd. destruct ok.
  - intros [= <- _]. by exists q1.
  - apply IH. replace q2 with (add N q1 packet).2 by (by rewrite Hadd).
    by apply wf_add.
Qed.

(** The bound on the iterations in [tx] does not cut the loop short:
    more iterations give the same result. *)
Lemma tx_loop_fuel packet signals : forall q fuel,
  (length signals < fuel)%nat ->
  tx_loop N fuel signals q packet
  = tx_loop N (S (length signals)) signals q packet.
Proof.
  induction signals as [|n signals IH]; intros q fuel Hfuel;
    (destruct fuel as [|fuel]; [lia|]); simpl in *.
  - destruct (full N q) eqn:Hfull; [done|].
    unfold add. by rewrite Hfull.
  - destruct (full N q) eqn:Hfull.
    + destruct (add N (peer_takes N n q) packet) as [[] q2]; [done|].
      rewrite (IH q2 fuel) by lia. done.
    + unfold add. by rewrite Hfull.
Qed.

(** [tx] does not wait when the queue is not full. *)
Lemma tx_not_full t signals packet :
  full N (_tx_queue t) = false ->
  exists t', tx N t signals packet = Some (t', signals).
Proof.
  intros Hfull. unfold tx. simpl. rewrite Hfull.
  unfold add. rewrite Hfull. eauto.
Qed.

(** [tx] blocks forever on a full queue when no signal arrives. *)
Lemma tx_blocked t packet :
  full N (_tx_queue t) = true -> tx N t [] packet = None.
Proof. intros Hfull. unfold tx. simpl. by rewrite Hfull. Qed.

Lemma added_single_element q1 q' packet :
  wf N q1 -> add N q1 packet = (true, q') ->
  2 <= N /\ wf N q' /\
  (empty q1 = true <-> count N q' = 1) /\
  (single_element N q' = true <-> count N q' = 1).
Proof.
  intros Hwf Hadd.
  assert (full N q1 = false) as Hfull.
  { unfold add in Hadd. by destruct (full N q1). }
  pose proof (not_full_capacity q1 Hwf Hfull) as HN2.
  pose proof (count_add N HN q1 packet Hwf Hfull) as Hc.
  pose proof (wf_add N HN q1 packet Hwf) as Hwf'.
  rewrite Hadd in Hc, Hwf'. simpl in Hc, Hwf'.
  split; [done|]. split; [done|]. split.
  - rewrite (empty_count N q1 Hwf). lia.
  - by apply single_element_count.
Qed.

Lemma try_tx_not_empty t packet :
  wf N (_tx_queue t) -> 1 <= count N (_tx_queue t) ->
  let t' := (try_tx N t packet).2 in
  wf N (_tx_queue t') /\ 1 <= count N (_tx_queue t') /\
  _tx_wakeup_needed t' = _tx_wakeup_needed t /\ _rx_ready t' = _rx_ready t.
Proof.
  intros Hwf Hc. unfold try_tx.
  destruct (full N (_tx_queue t)) eqn:Hfull; simpl; [done|].
  destruct (add N (_tx_queue t) packet) as [ok q'] eqn:Hadd.
  assert (ok = true) as -> by (by rewrite <- (add_not_full N _ packet Hfull), Hadd).
  destruct (added_single_element _ _ _ Hwf Hadd) as (HN2 & Hwf' & _ & Hs).
  pose proof (count_add N HN _ packet Hwf Hfull) as Hc'.
  rewrite Hadd in Hc'. simpl in Hc' |- *.
  destruct (single_element N q') eqn:Hse.
  - destruct Hs as [Hs _]. specialize (Hs eq_refl). lia.
  - simpl. split; [done|]. split; [lia|done].
Qed.

Lemma try_tx_all_not_empty packets : forall t,
  wf N (_tx_queue t) -> 1 <= count N (_tx_queue t) ->
  _tx_wakeup_needed (try_tx_all N t packets) = _tx_wakeup_needed t /\
  _rx_ready (try_tx_all N t packets) = _rx_ready t.
Proof.
  induction packets as [|packet packets IH]; intros t Hwf Hc; simpl; [done|].
  destruct (try_tx_not_empty t packet Hwf Hc) as (Hwf' & Hc' & Hflag & Hsig).
  destruct (IH _ Hwf' Hc') as [IH1 IH2]. split; congruence.
Qed.

End Transmitter_lemmas.

(** C5: whenever the blocking [tx] completes, it has left its loop by a
    successful [add]; it has submitted the data-available signal
    [_rx_ready] exactly once if that [add] left the queue with exactly one
    element, which is the case exactly if the [add] found the queue empty,
    and it has submitted no signal otherwise. *)
Theorem tx_signals_once N t signals packet t' signals' :
  valid_queue_size N -> wf N (_tx_queue t) ->
  tx N t signals packet = Some (t', signals') ->
  exists q1,
    wf N q1 /\ add N q1 packet = (true, _tx_queue t') /\
    (empty q1 = true <-> count N (_tx_queue t') = 1) /\
    _rx_ready t' = if decide (count N (_tx_queue t') = 1)
                   then S (_rx_ready t) else _rx_ready t.
Proof.
  intros HN Hwf. unfold tx.
  destruct (tx_loop N _ signals (_tx_queue t) packet) as [[q' rest]|] eqn:Hloop;
    [|done].
  destruct (tx_loop_added N HN _ _ _ _ _ _ Hwf Hloop) as (q1 & Hwf1 & Hadd).
  destruct (added_single_element N HN _ _ _ Hwf1 Hadd) as (_ & _ & Hempty & Hsingle).
  simpl. intros [= <- _]. exists q1.
  destruct (single_element N q') eqn:Hse; simpl.
  - destruct Hsingle as [Hsingle _]. specialize (Hsingle eq_refl).
    rewrite decide_True by done. done.
  - rewrite decide_False; [done|]. intros Hc. apply Hsingle in Hc. congruence.
Qed.

Lemma tx_signals_once_witness :
  let t := mk_transmitter (constructed (mk_queue 0 0 (replicate 2 default_packet)))
             false 0 in
  let t1 := mk_transmitter (mk_queue 1 0 [mk_packet 64 8; default_packet]) false 1 in
  let t2 := mk_transmitter (mk_queue 0 1 [mk_packet 64 8; mk_packet 128 8]) false 2 in
  tx 2 t [] (mk_packet 64 8) = Some (t1, []) /\
  tx 2 t1 [] (mk_packet 128 8) = None /\
  tx 2 t1 [0%nat; 1%nat] (mk_packet 128 8) = Some (t2, []) /\
  exists q1, add 2 q1 (mk_packet 128 8) = (true, _tx_queue t2) /\ empty q1 = true.
Proof.
  intros t t1 t2. split; [reflexivity|]. split; [reflexivity|].
  split; [reflexivity|].
  destruct (tx_signals_once 2 t1 [0%nat; 1%nat] (mk_packet 128 8) t2 [])
    as (q1 & _ & Hadd & Hempty & _).
  - unfold valid_queue_size. lia.
  - unfold wf. simpl. lia.
  - reflexivity.
  - exists q1. split; [exact Hadd|]. apply Hempty. reflexivity.
Defined.

(** C6: if a successful [try_tx] takes the queue from empty to exactly
    one element, the data-available notification is deferred: [try_tx]
    itself submits no signal; the next [tx_wakeup] submits the signal and
    returns true; a second [tx_wakeup] submits nothing and returns false
    when no transition from empty to non-empty has happened in between,
    also after further calls of [try_tx] on the non-empty queue. *)
Theorem try_tx_defers_wakeup N t packet more :
  valid_queue_size N -> wf N (_tx_queue t) ->
  empty (_tx_queue t) = true -> (try_tx N t packet).1 = true ->
  let t1 := (try_tx N t packet).2 in
  let t2 := (tx_wakeup t1).2 in
  let t3 := try_tx_all N t2 more in
  count N (_tx_queue t1) = 1 /\ _rx_ready t1 = _rx_ready t /\
  (tx_wakeup t1).1 = true /\ _rx_ready t2 = S (_rx_ready t) /\
  (tx_wakeup t3).1 = false /\ _rx_ready (tx_wakeup t3).2 = S (_rx_ready t).
Proof.
  intros HN Hwf Hempty Hok t1 t2 t3. subst t3 t2 t1. revert Hok. unfold try_tx.
  destruct (full N (_tx_queue t)) eqn:Hfull; [done|]. intros _.
  destruct (add N (_tx_queue t) packet) as [ok q'] eqn:Hadd.
  assert (ok = true) as -> by (by rewrite <- (add_not_full N _ packet Hfull), Hadd).
  destruct (added_single_element N HN _ _ _ Hwf Hadd) as (HN2 & Hwf' & He & Hs).
  assert (count N q' = 1) as Hc by (by apply He).
  assert (single_element N q' = true) as Hse by (by apply Hs).
  simpl. rewrite Hse. simpl.
  split; [done|]. split; [done|]. split; [done|]. split; [done|].
  match goal with |- context [try_tx_all N ?t2 more] =>
    destruct (try_tx_all_not_empty N HN more t2) as [Hflag Hsig];
      [done|simpl; lia|]
  end.
  unfold tx_wakeup. rewrite Hflag. simpl. by rewrite Hsig.
Qed.

Lemma try_tx_defers_wakeup_witness :
  let t := mk_transmitter (constructed (mk_queue 5 6 (replicate 4 (mk_packet 9 9))))
             false 0 in
  let t1 := (try_tx 4 t (mk_packet 64 8)).2 in
  let t2 := (tx_wakeup t1).2 in
  _rx_ready t1 = 0%nat /\ tx_wakeup t1 = (true, t2) /\ _rx_ready t2 = 1%nat /\
  (tx_wakeup (try_tx_all 4 t2 [mk_packet 128 8])).1 = false.
Proof.
  intros t t1 t2.
  destruct (try_tx_defers_wakeup 4 t (mk_packet 64 8) [mk_packet 128 8])
    as (_ & H1 & _ & H2 & H3 & _).
  - unfold valid_queue_size. lia.
  - unfold wf. simpl. lia.
  - reflexivity.
  - reflexivity.
  - split; [exact H1|]. split; [reflexivity|]. split; [exact H2|exact H3].
Defined.

(** ** Conversions between machine integers *)

Section Machine_lemmas.

Variable w : Z.
Hypothesis Hw : 0 < w.

Lemma pow2_half : 2 ^ w = 2 * 2 ^ (w - 1).
Proof. rewrite <- Z.pow_succ_r by lia. f_equal. lia. Qed.

Lemma pow2_half_pos : 0 < 2 ^ (w - 1).
Proof. apply Z.pow_pos_nonneg; lia. Qed.

Lemma swrap_congruent x : exists k, swrap w x = x + k * 2 ^ w.
Proof.
  unfold swrap. exists (- ((x + 2 ^ (w - 1)) / 2 ^ w)).
  pose proof pow2_half_pos.
  pose proof (Z.div_mod (x + 2 ^ (w - 1)) (2 ^ w)) as Hdm.
  rewrite pow2_half in *. lia.
Qed.

Lemma wrap_swrap_add x y : wrap w (swrap w x + y) = wrap w (x + y).
Proof.
  destruct (swrap_congruent x) as [k ->]. unfold wrap.
  replace (x + k * 2 ^ w + y) with (x + y + k * 2 ^ w) by lia.
  apply Z_mod_plus_full.
Qed.

Lemma wrap_swrap x : wrap w (swrap w x) = wrap w x.
Proof.
  rewrite <- (Z.add_0_r (swrap w x)), wrap_swrap_add. by rewrite Z.add_0_r.
Qed.

Lemma swrap_small x : is_signed w x -> swrap w x = x.
Proof.
  unfold is_signed, swrap. intros Hx. pose proof pow2_half.
  rewrite Z.mod_small; lia.
Qed.

End Machine_lemmas.

(** ** Properties of the layout and of the packet validation *)

(** Rounding up to the next multiple of 64. *)
Lemma round_up_64 x :
  let r := 64 * ((x + 63) / 64) in
  x <= r < x + 64 /\ r mod 64 = 0.
Proof.
  intros r. subst r. pose proof (Z.div_mod (x + 63) 64).
  pose proof (Z.mod_pos_bound (x + 63) 64). split; [lia|].
  rewrite Z.mul_comm. apply Z_mod_mult.
Qed.

Section Base_lemmas.

Variable arch : Arch.

Let w := word_bits arch.

Lemma align_addr_64 x :
  0 <= x -> x + 63 < 2 ^ w -> align_addr arch x 6 = 64 * ((x + 63) / 64).
Proof.
  intros Hx Hlt. unfold align_addr, size_t. fold w.
  change (2 ^ 6) with 64. replace (x + (64 - 1)) with (x + 63) by lia.
  pose proof (round_up_64 x) as [Hr _]. simpl in Hr.
  rewrite (wrap_small w (x + 63)) by (unfold is_unsigned; lia).
  apply wrap_small. unfold is_unsigned. lia.
Qed.

Lemma bulk_buffer_offset_computed sq aq :
  0 <= sq -> 0 <= aq -> sq + aq + 63 < 2 ^ w ->
  size_t arch
    (off_t arch (align_addr arch
       (size_t arch (off_t arch (size_t arch (0 + sq)) + aq)) 6))
  = 64 * ((sq + aq + 63) / 64).
Proof.
  intros Hsq Haq Hlt. pose proof (word_bits_pos arch) as Hw.
  pose proof (round_up_64 (sq + aq)) as [Hr _]. simpl in Hr.
  unfold size_t, off_t. fold w in Hw |- *.
  rewrite wrap_swrap by done.
  rewrite (wrap_swrap_add w Hw).
  rewrite (wrap_small w (0 + sq)) by (unfold is_unsigned; lia).
  rewrite (wrap_small w (0 + sq + aq)) by (unfold is_unsigned; lia).
  replace (0 + sq + aq) with (sq + aq) by lia.
  pose proof (align_addr_64 (sq + aq)) as Ha. fold w in Ha.
  rewrite Ha by lia.
  apply wrap_small. unfold is_unsigned. lia.
Qed.

Lemma constructed_base_ok local_base ds_size sq aq b :
  0 <= sq -> 0 <= aq -> 0 <= ds_size < 2 ^ (w - 1) ->
  sq + aq + 63 < 2 ^ (w - 1) ->
  Packet_stream_base arch local_base ds_size sq aq = Ok b ->
  base_ok arch b.
Proof.
  intros Hsq Haq HS Hlt. pose proof (word_bits_pos arch) as Hw.
  pose proof (pow2_half w Hw) as Hhalf. pose proof (pow2_half_pos w Hw) as Hpos.
  pose proof (round_up_64 (sq + aq)) as [Hr _]. simpl in Hr.
  unfold Packet_stream_base.
  rewrite bulk_buffer_offset_computed by (fold w; lia).
  destruct (Z.geb_spec (64 * ((sq + aq + 63) / 64)) ds_size); [done|].
  intros [= <-]. unfold base_ok. simpl. fold w.
  assert (off_t arch (align_addr arch
            (size_t arch (off_t arch (size_t arch (0 + sq)) + aq)) 6)
          = 64 * ((sq + aq + 63) / 64)) as ->.
  { unfold size_t, off_t. fold w.
    rewrite (wrap_swrap_add w Hw).
    rewrite (wrap_small w (0 + sq)) by (unfold is_unsigned; lia).
    rewrite (wrap_small w (0 + sq + aq)) by (unfold is_unsigned; lia).
    replace (0 + sq + aq) with (sq + aq) by lia.
    pose proof (align_addr_64 (sq + aq)) as Ha. fold w in Ha.
    rewrite Ha by lia.
    apply (swrap_small w Hw). unfold is_signed. lia. }
  unfold size_t. fold w.
  rewrite wrap_small by (unfold is_unsigned; lia). lia.
Qed.

(** A descriptor of a contained range passes the validation. *)
Lemma packet_valid_contained b packet :
  base_ok arch b -> packet_typed arch packet -> 0 < size packet ->
  in_bulk_buffer b packet -> packet_valid arch b packet = true.
Proof.
  intros (Ho & Hs & Hend) [Hoff Hsize] Hpos [Hlo Hhi].
  pose proof (word_bits_pos arch) as Hw.
  pose proof (pow2_half w Hw) as Hhalf. pose proof (pow2_half_pos w Hw) as Hp.
  unfold is_signed, is_unsigned in *. fold w in Hoff, Hsize, Hend.
  unfold packet_valid, size_t, off_t. fold w.
  rewrite (swrap_small w Hw (_bulk_buffer_size b)) by (unfold is_signed; lia).
  rewrite (swrap_small w Hw) by (unfold is_signed; lia).
  rewrite (wrap_small w (offset packet)) by (unfold is_unsigned; lia).
  rewrite (wrap_small w (_bulk_buffer_offset b)) by (unfold is_unsigned; lia).
  rewrite !wrap_small by (unfold is_unsigned; lia).
  apply orb_true_intro. right.
  rewrite !andb_true_iff, Z.geb_le, Z.ltb_lt, Z.leb_le. lia.
Qed.

(** A descriptor of a range that is not contained fails the validation,
    provided the end of the range is representable as [size_t]. *)
Lemma packet_valid_outside b packet :
  base_ok arch b -> packet_typed arch packet -> 0 < size packet ->
  offset packet + size packet < 2 ^ w ->
  ~ in_bulk_buffer b packet -> packet_valid arch b packet = false.
Proof.
  intros (Ho & Hs & Hend) [Hoff Hsize] Hpos Hnowrap Hout.
  pose proof (word_bits_pos arch) as Hw.
  pose proof (pow2_half w Hw) as Hhalf. pose proof (pow2_half_pos w Hw) as Hp.
  unfold is_signed, is_unsigned, in_bulk_buffer in *.
  fold w in Hoff, Hsize, Hend.
  unfold packet_valid.
  destruct (Z.eqb_spec (size packet) 0); [lia|]. simpl.
  destruct (Z.geb_spec (offset packet) (_bulk_buffer_offset b)); [|done].
  simpl. apply andb_false_intro2. apply Z.leb_gt.
  unfold size_t. fold w.
  rewrite (wrap_small w (offset packet)) by (unfold is_unsigned; lia).
  rewrite (wrap_small w (_bulk_buffer_offset b)) by (unfold is_unsigned; lia).
  rewrite !wrap_small by (unfold is_unsigned; lia). lia.
Qed.

(** With the content type [char], the descriptors of contained ranges
    yield a pointer. *)
Lemma packet_content_contained b packet :
  base_ok arch b -> packet_typed arch packet -> 0 < size packet ->
  in_bulk_buffer b packet ->
  packet_content arch sizeof_char b packet
  = Ok (addr_t arch (_ds_local_base b + addr_t arch (offset packet))).
Proof.
  intros Hb Ht Hpos Hin. unfold packet_content.
  rewrite packet_valid_contained by done.
  destruct (Z.eqb_spec (size packet) 0); [lia|].
  destruct (Z.ltb_spec (size packet) sizeof_char); [unfold sizeof_char in *; lia|].
  done.
Qed.

Lemma packet_content_outside b packet :
  base_ok arch b -> packet_typed arch packet -> 0 < size packet ->
  offset packet + size packet < 2 ^ w ->
  ~ in_bulk_buffer b packet ->
  packet_content arch sizeof_char b packet = Throw Invalid_packet.
Proof.
  intros Hb Ht Hpos Hnowrap Hout. unfold packet_content.
  rewrite packet_valid_outside by done.
  destruct (Z.eqb_spec (size packet) 0); [lia|done].
Qed.

End Base_lemmas.

(** C4: the construction over a transport dataspace of size [ds_size]
    throws [Transport_dataspace_too_small] if and only if the bulk-buffer
    offset, which is the end of the submit queue followed by the
    acknowledgement queue rounded up to the next multiple of 64, is
    greater than or equal to [ds_size]; otherwise it succeeds and the
    bulk-buffer size is [ds_size] minus that offset. *)
Theorem construction_too_small arch local_base ds_size sq aq :
  is_unsigned (word_bits arch) ds_size ->
  0 <= sq -> 0 <= aq -> sq + aq + 63 < 2 ^ word_bits arch ->
  let bbo := 64 * ((sq + aq + 63) / 64) in
  (sq + aq <= bbo < sq + aq + 64 /\ bbo mod 64 = 0) /\
  (Packet_stream_base arch local_base ds_size sq aq
     = Throw Transport_dataspace_too_small <-> ds_size <= bbo) /\
  (bbo < ds_size ->
   exists b, Packet_stream_base arch local_base ds_size sq aq = Ok b /\
             size_t arch (_bulk_buffer_offset b) = bbo /\
             _bulk_buffer_size b = ds_size - bbo /\
             _ds_size b = ds_size).
Proof.
  intros HS Hsq Haq Hlt bbo. split; [apply round_up_64|].
  pose proof (round_up_64 (sq + aq)) as [Hr _]. simpl in Hr. fold bbo in Hr.
  pose proof (bulk_buffer_offset_computed arch sq aq Hsq Haq Hlt) as Hbbo.
  fold bbo in Hbbo. unfold Packet_stream_base. rewrite Hbbo.
  unfold is_unsigned in HS.
  destruct (Z.geb_spec bbo ds_size) as [Hge|Hlt'].
  - split; [split; [lia|done]|lia].
  - split; [split; [done|lia]|]. intros _. eexists. split; [done|]. simpl.
    split; [done|]. split; [|done].
    apply wrap_small. unfold is_unsigned. lia.
Qed.

Lemma construction_too_small_witness :
  Packet_stream_base Arch64 65536 2112 1032 1032
    = Throw Transport_dataspace_too_small /\
  exists b, Packet_stream_base Arch64 65536 4096 1032 1032 = Ok b /\
            _bulk_buffer_size b = 4096 - 2112.
Proof.
  split.
  - destruct (construction_too_small Arch64 65536 2112 1032 1032)
      as (_ & Hthrow & _); [by vm_compute|lia|lia|by vm_compute|].
    apply Hthrow. by vm_compute.
  - destruct (construction_too_small Arch64 65536 4096 1032 1032)
      as (_ & _ & Hok); [by vm_compute|lia|lia|by vm_compute|].
    destruct Hok as (b & Hb & _ & Hsize & _); [by vm_compute|].
    exists b. split; [exact Hb|exact Hsize].
Defined.

(** C3 at a descriptor whose size makes [offset + size] wrap around:
    the bulk buffer of the dataspace of 4096 bytes is the range
    [2112, 4096); the descriptor of offset 4000 and size [2^64 - 3000] has
    a positive size and a byte range that is not contained in the bulk
    buffer, yet [packet_valid] accepts it and [packet_content] returns a
    pointer instead of throwing [Invalid_packet]. *)
Theorem packet_content_size_wraps :
  let packet := mk_packet 4000 (2 ^ 64 - 3000) in
  exists b,
    Packet_stream_base Arch64 65536 4096 1032 1032 = Ok b /\
    base_ok Arch64 b /\
    _bulk_buffer_offset b = 2112 /\ _bulk_buffer_size b = 1984 /\
    packet_typed Arch64 packet /\ 0 < size packet /\
    ~ in_bulk_buffer b packet /\
    packet_valid Arch64 b packet = true /\
    packet_content Arch64 sizeof_char b packet = Ok (65536 + 4000).
Proof.
  intros packet. exists (mk_base 65536 4096 0 1032 2112 1984).
  split; [reflexivity|].
  unfold base_ok, packet_typed, is_signed, is_unsigned, in_bulk_buffer.
  simpl. repeat split; try lia; reflexivity.
Qed.

(** C10: for every descriptor of size 0, [packet_content] returns the
    null pointer, whatever the offset of the descriptor and the content
    type, and does not throw. *)
Theorem packet_content_empty arch sizeof_content b packet :
  size packet = 0 -> packet_content arch sizeof_content b packet = Ok nullptr.
Proof. intros Hs. unfold packet_content. by rewrite Hs. Qed.

Lemma packet_content_empty_witness :
  let b := mk_base 65536 4096 0 1032 2112 1984 in
  ~ in_bulk_buffer b (mk_packet 1000000 0) /\
  packet_content Arch64 sizeof_char b (mk_packet 1000000 0) = Ok nullptr.
Proof.
  intros b. split.
  - unfold in_bulk_buffer. simpl. lia.
  - apply (packet_content_empty Arch64 sizeof_char b (mk_packet 1000000 0)).
    reflexivity.
Defined.

(** ** The first-fit allocator satisfies the contract *)

Section First_fit_lemmas.

Import First_fit.

Lemma alloc_keeps arch a size align b0 s0 :
  allocated a b0 s0 -> allocated (alloc arch a size align).1 b0 s0.
Proof.
  unfold allocated, alloc. intros Hin.
  destruct (List.find _ _); simpl; [by right|done].
Qed.

Lemma alloc_fresh arch a size align base :
  0 < size -> (alloc arch a size align).2 = Some base ->
  is_unsigned (word_bits arch) base /\
  allocated (alloc arch a size align).1 base size /\
  forall b0 s0, allocated a b0 s0 -> disjoint_ranges b0 s0 base size.
Proof.
  unfold allocated, alloc. intros Hsize.
  destruct (List.find _ _) as [x|] eqn:Hfind; simpl; [|done].
  intros [= ->]. apply find_some in Hfind as [_ Hfits].
  unfold fits in Hfits. rewrite !andb_true_iff in Hfits.
  destruct Hfits as [[[Hx Hword] _] Hfree].
  apply Z.leb_le in Hx. apply Z.ltb_lt in Hword.
  split; [unfold is_unsigned; lia|]. split; [by left|].
  intros b0 s0 Hin. rewrite forallb_forall in Hfree.
  specialize (Hfree _ Hin). simpl in Hfree.
  unfold overlaps, disjoint_ranges in *.
  apply negb_true_iff, andb_false_iff in Hfree as [H|H];
    apply Z.ltb_ge in H; lia.
Qed.

Lemma release_keeps a b s b0 s0 :
  0 < s -> allocated a b0 s0 -> disjoint_ranges b0 s0 b s ->
  allocated (release a b s) b0 s0.
Proof.
  unfold allocated, release, disjoint_ranges. simpl. intros Hs Hin Hd.
  apply filter_In. split; [done|]. simpl.
  apply negb_true_iff, andb_false_iff.
  destruct (Z.leb_spec b0 b); [right; apply Z.ltb_ge; lia|by left].
Qed.

Definition First_fit_contract (arch : Arch)
  : @Range_allocator_contract arch State (allocator arch) :=
  Build_Range_allocator_contract arch State (allocator arch)
    allocated (alloc_keeps arch) (alloc_fresh arch) release_keeps.

End First_fit_lemmas.

(** ** Properties of the packet allocation *)

Lemma addr_of_offset arch base :
  is_unsigned (word_bits arch) base -> addr_t arch (off_t arch base) = base.
Proof.
  intros Hb. unfold addr_t, off_t.
  rewrite wrap_swrap by apply word_bits_pos. by apply wrap_small.
Qed.

Lemma off_t_zero arch : off_t arch 0 = 0.
Proof. by destruct arch. Qed.

Section Source_lemmas.

Variable arch : Arch.
Context {A : Type} `{Range_allocator_contract arch A}.

Lemma alloc_packet_in_use (a : A) sz align b0 s0 :
  in_use a b0 s0 -> in_use (alloc_packet arch a sz align).1 b0 s0.
Proof.
  intros Hin. unfold alloc_packet. destruct (sz =? 0); [done|].
  pose proof (alloc_aligned_keeps a sz align b0 s0 Hin) as Hk.
  by destruct (alloc_aligned a sz align) as [a' [base|]].
Qed.

Lemma alloc_packet_fresh (a : A) sz align d b0 s0 :
  0 <= sz -> (alloc_packet arch a sz align).2 = Ok d -> 0 < size d ->
  in_use a b0 s0 ->
  disjoint_ranges b0 s0 (addr_t arch (offset d)) (size d).
Proof.
  intros Hsz. unfold alloc_packet.
  destruct (Z.eqb_spec sz 0) as [->|Hne]; simpl.
  - intros [= <-]. simpl. lia.
  - pose proof (alloc_aligned_fresh a sz align) as Hf.
    destruct (alloc_aligned a sz align) as [a' [base|]]; simpl in *; [|done].
    intros [= <-] _ Hin. simpl.
    destruct (Hf base) as (Hword & _ & Hd); [lia|done|].
    rewrite addr_of_offset by done. by apply Hd.
Qed.

Lemma release_packet_in_use (a : A) d packet :
  in_use a (addr_t arch (offset d)) (size d) ->
  spares arch d (Op_release packet) ->
  in_use (release_packet arch a packet) (addr_t arch (offset d)) (size d).
Proof.
  intros Hin Hsp. unfold release_packet. simpl in Hsp.
  destruct (Z.eqb_spec (size packet) 0); [done|].
  destruct Hsp as [|[Hpos Hd]]; [done|]. by apply free_keeps.
Qed.

(** While the range of [d] stays allocated, no allocation of the
    source assigns a range that overlaps it. *)
Lemma run_source_disjoint d ops : forall (a : A) d',
  in_use a (addr_t arch (offset d)) (size d) ->
  Forall (spares arch d) ops ->
  In (Ok d') (run_source arch a ops).2 -> 0 < size d' ->
  disjoint_packets arch d d'.
Proof.
  induction ops as [|[sz align|packet] ops IH];
    intros a d' Hin Hops Hd' Hpos; simpl in *; [done|..].
  - inversion_clear Hops as [|? ? Hsize Hops']. simpl in Hsize.
    rename Hops' into Hops.
    pose proof (alloc_packet_in_use a sz align _ _ Hin) as Hin'.
    pose proof (alloc_packet_fresh a sz align) as Hfresh.
    destruct (alloc_packet arch a sz align) as [a' r]. simpl in *.
    specialize (IH a' d' Hin' Hops).
    destruct (run_source arch a' ops) as [a'' rs]. simpl in *.
    destruct Hd' as [->|Hd']; [|by apply IH].
    by apply (Hfresh d').
  - inversion_clear Hops as [|? ? Hsp Hops']. rename Hops' into Hops.
    apply (IH (release_packet arch a packet)); [|done..].
    by apply release_packet_in_use.
Qed.

End Source_lemmas.

(** C8: for every requested size greater than 0, [alloc_packet] throws
    [Packet_alloc_failed] exactly when the range allocator provides no
    range for the request; on success it returns a descriptor whose offset
    and size denote the range the allocator assigned: this range is in use
    in the resulting allocator state, [release_packet] of the descriptor
    frees exactly this range, and as long as no overlapping descriptor is
    released, no later allocation returns a descriptor that overlaps it. *)
Theorem alloc_packet_spec arch {A : Type} `{Range_allocator_contract arch A}
  (a : A) (sz align : Z) :
  0 < sz ->
  (forall a', alloc_packet arch a sz align = (a', Throw Packet_alloc_failed)
              <-> alloc_aligned a sz align = (a', None)) /\
  (forall a' d, alloc_packet arch a sz align = (a', Ok d) ->
     alloc_aligned a sz align = (a', Some (addr_t arch (offset d))) /\
     size d = sz /\
     in_use a' (addr_t arch (offset d)) sz /\
     release_packet arch a' d = free a' (addr_t arch (offset d)) sz /\
     forall ops d',
       Forall (spares arch d) ops ->
       In (Ok d') (run_source arch a' ops).2 -> 0 < size d' ->
       disjoint_packets arch d d').
Proof.
  intros Hsz. unfold alloc_packet.
  destruct (Z.eqb_spec sz 0) as [|Hne]; [lia|].
  pose proof (alloc_aligned_fresh a sz align) as Hfresh.
  destruct (alloc_aligned a sz align) as [a1 [base|]] eqn:Halloc; simpl in *.
  - destruct (Hfresh base Hsz eq_refl) as (Hword & Hin & _).
    split; [by split|]. intros a' d [= <- <-]. simpl.
    rewrite addr_of_offset by done.
    split; [done|]. split; [done|]. split; [done|]. split.
    + unfold release_packet. simpl.
      destruct (Z.eqb_spec sz 0); [lia|]. by rewrite addr_of_offset.
    + intros ops d' Hops Hd' Hpos.
      apply (run_source_disjoint arch _ ops a1 d'); [|done..].
      simpl. by rewrite addr_of_offset.
  - split; [|done]. intros a'. split; intros [= <-]; done.
Qed.

Lemma alloc_packet_spec_witness :
  let b := mk_base 65536 4096 0 1032 2112 1984 in
  let H := First_fit.allocator Arch64 in
  let a := Packet_stream_source b (First_fit.mk_state [] []) in
  let d := mk_packet 2112 64 in
  let a' := First_fit.mk_state [(2112, 1984)] [(2112, 64)] in
  alloc_packet Arch64 a 64 PACKET_ALIGNMENT = (a', Ok d) /\
  (run_source Arch64 a' [Op_alloc 64 0]).2 = [Ok (mk_packet 2176 64)] /\
  disjoint_packets Arch64 d (mk_packet 2176 64) /\
  (alloc_packet Arch64 a 2048 PACKET_ALIGNMENT).2 = Throw Packet_alloc_failed.
Proof.
  intros b H a d a'.
  destruct (@alloc_packet_spec Arch64 First_fit.State H (First_fit_contract Arch64)
              a 64 PACKET_ALIGNMENT) as [_ Hok]; [lia|].
  destruct (Hok a' d) as (_ & _ & _ & _ & Hlater); [reflexivity|].
  split; [reflexivity|]. split; [reflexivity|]. split.
  - apply (Hlater [Op_alloc 64 0] (mk_packet 2176 64)).
    + constructor; [simpl; lia|constructor].
    + left. reflexivity.
    + simpl. lia.
  - destruct (@alloc_packet_spec Arch64 First_fit.State H (First_fit_contract Arch64)
                a 2048 PACKET_ALIGNMENT) as [Hfail _]; [lia|].
    specialize (Hfail a). destruct Hfail as [_ Hfail].
    rewrite Hfail; reflexivity.
Defined.

(** C9: [alloc_packet] with size 0 never fails and never consults the
    allocator: it returns the descriptor of offset 0 and size 0 and leaves
    the allocator as it is, an allocator that records its calls records
    none; [release_packet] of a descriptor of size 0 likewise leaves the
    allocator state unchanged without calling the allocator. *)
Theorem alloc_packet_zero arch {A : Type} `{Range_allocator A}
  (a : A) (align off : Z) (log : list Call) :
  alloc_packet arch a 0 align = (a, Ok (mk_packet 0 0)) /\
  calls (alloc_packet arch (mk_recorded a log) 0 align).1 = log /\
  release_packet arch a (mk_packet off 0) = a /\
  calls (release_packet arch (mk_recorded a log) (mk_packet off 0)) = log.
Proof.
  unfold alloc_packet, release_packet. simpl. by rewrite off_t_zero.
Qed.

Lemma alloc_packet_zero_witness :
  let H := First_fit.allocator Arch64 in
  let a := First_fit.mk_state [(2112, 1984)] [(2112, 64)] in
  alloc_packet Arch64 a 0 PACKET_ALIGNMENT = (a, Ok (mk_packet 0 0)) /\
  release_packet Arch64 a (mk_packet 2112 0) = a /\
  calls (alloc_packet Arch64 (mk_recorded a []) 64 0).1 = [Call_alloc_aligned 64 0].
Proof.
  intros H a.
  destruct (@alloc_packet_zero Arch64 First_fit.State H a PACKET_ALIGNMENT 2112 [])
    as (H1 & _ & H2 & _).
  split; [exact H1|]. split; [exact H2|reflexivity].
Defined.
